(** * Sliding-window rate limiter (rateLimiter.js)

    A shallow embedding of the [RateLimiter] class and the properties of its
    three public methods [isAllowed], [reset] and [getStats].

    Modelling conventions.
    - Instants ([Date.now()]) and the two configuration numbers are
      integers ([Z]): millisecond clocks return integers, and all the
      arithmetic of the class (subtraction, addition, comparison, one
      division by 1000 under [Math.ceil]) is exact on integers of that size.
    - The clock is an input: a method that reads [Date.now()] takes the
      instant [now] as an argument.
    - [this.requests] is a JS [Map] from strings to arrays of numbers, here a
      [gmap string (list Z)]; no method iterates the map, so insertion order
      is not observable.
    - A method is a function from the receiver to its result paired with
      the receiver after the call. *)

From stdpp Require Import gmap strings list fin_maps sorting pretty.
From Stdlib Require Import ZArith Lia.

Local Open Scope Z_scope.

(** ** Data *)

(** The receiver: the three fields set by the constructor. *)
Record RateLimiter : Type := mkRateLimiter {
  maxRequests : Z;
  windowMs : Z;
  requests : gmap string (list Z)
}.

(** The object literal returned by [isAllowed]. *)
Module Decision.
Record t : Type := mk {
  allowed : bool;
  remaining : Z;
  resetTime : Z;
  retryAfter : Z
}.
End Decision.

(** The object literal returned by [getStats]. *)
Module Stats.
Record t : Type := mk {
  requestCount : Z;
  remaining : Z;
  resetTime : Z
}.
End Stats.

(** How a JS call completes: normally with a value, or by throwing.
    [ConfigurationError] is the one error class the specification names. *)
Inductive exn : Type := ConfigurationError.

Inductive completion (A : Type) : Type :=
| Normal (a : A)
| Throw (e : exn).
Arguments Normal {A} a.
Arguments Throw {A} e.

(** ** The [Map] methods the class uses *)

Definition Map_has (ip : string) (m : gmap string (list Z)) : bool :=
  bool_decide (is_Some (m !! ip)).

(** [Map.prototype.get]; on a missing key JS yields [undefined], which
    [isAllowed] rules out by its has/set prologue and [getStats] by its
    early return, so the default below is never observed. *)
Definition Map_get (ip : string) (m : gmap string (list Z)) : list Z :=
  default [] (m !! ip).

Definition Map_set (ip : string) (v : list Z) (m : gmap string (list Z))
  : gmap string (list Z) := <[ip := v]> m.

Definition Map_delete (ip : string) (m : gmap string (list Z))
  : gmap string (list Z) := delete ip m.

Definition set_requests (this : RateLimiter) (m : gmap string (list Z))
  : RateLimiter :=
  {| maxRequests := maxRequests this; windowMs := windowMs this; requests := m |}.

(** [Math.ceil(x / d)] for integers [x] and a positive integer [d]. *)
Definition Math_ceil_div (x d : Z) : Z := - ((- x) / d).

(** ** The class *)

(** [constructor(maxRequests = 10, windowMs = 60000)]: an omitted argument
    ([None]) takes its default; the body has three assignments and no
    [throw]. *)
Definition constructor (maxRequests windowMs : option Z)
  : completion RateLimiter :=
  Normal {| maxRequests := default 10 maxRequests;
            windowMs := default 60000 windowMs;
            requests := ∅ |}.

(** [isAllowed(ip)], with [now] the value of [Date.now()].  The array that
    [filter] returns is the one stored at line 30 and then extended by
    [push]; the second [set] stores that same array, so the store after an
    admitted call holds the extended array. *)
Definition isAllowed (now : Z) (ip : string) (this : RateLimiter)
  : Decision.t * RateLimiter :=
  let windowStart := now - windowMs this in
  let m := requests this in
  let m := if Map_has ip m then m else Map_set ip [] m in
  let timestamps := Map_get ip m in
  let timestamps := filter (λ time, windowStart < time) timestamps in
  let m := Map_set ip timestamps m in
  let requestCount := Z.of_nat (length timestamps) in
  let allowed := bool_decide (requestCount < maxRequests this) in
  let timestamps := if allowed then timestamps ++ [now] else timestamps in
  let m := if allowed then Map_set ip timestamps m else m in
  let finalCount := if allowed then requestCount + 1 else requestCount in
  let remaining := Z.max 0 (maxRequests this - finalCount) in
  let resetTime :=
    match timestamps with
    | t0 :: _ => t0 + windowMs this
    | [] => now + windowMs this
    end in
  (Decision.mk allowed remaining resetTime
     (if allowed then 0 else Math_ceil_div (resetTime - now) 1000),
   set_requests this m).

(** [reset(ip)]. *)
Definition reset (ip : string) (this : RateLimiter) : RateLimiter :=
  set_requests this (Map_delete ip (requests this)).

(** [getStats(ip)], with [now] the value of [Date.now()].  No statement of
    the body assigns to [this] or calls a mutating method; [filter] builds a
    new array. *)
Definition getStats (now : Z) (ip : string) (this : RateLimiter)
  : Stats.t * RateLimiter :=
  let windowStart := now - windowMs this in
  if negb (Map_has ip (requests this)) then
    (Stats.mk 0 (maxRequests this) (now + windowMs this), this)
  else
    let timestamps :=
      filter (λ time, windowStart < time) (Map_get ip (requests this)) in
    (Stats.mk (Z.of_nat (length timestamps))
       (Z.max 0 (maxRequests this - Z.of_nat (length timestamps)))
       (match timestamps with
        | t0 :: _ => t0 + windowMs this
        | [] => now + windowMs this
        end),
     this).

(** ** Sequences of calls *)

Inductive call : Type :=
| Check (ip : string) (now : Z)
| Reset (ip : string)
| GetStats (ip : string) (now : Z).

Definition step (this : RateLimiter) (c : call) : RateLimiter :=
  match c with
  | Check ip now => (isAllowed now ip this).2
  | Reset ip => reset ip this
  | GetStats ip now => (getStats now ip this).2
  end.

Definition run (this : RateLimiter) (cs : list call) : RateLimiter :=
  foldl step this cs.

(** The limiter [new RateLimiter(maxRequests, windowMs)] before any call. *)
Definition fresh (maxRequests windowMs : Z) : RateLimiter :=
  mkRateLimiter maxRequests windowMs ∅.

(** The timestamps stored for a key, empty when the key has no entry. *)
Definition stored (ip : string) (this : RateLimiter) : list Z :=
  default [] (requests this !! ip).

(** The [allowed] flags of successive [isAllowed] calls for one key. *)
Fixpoint checks (ip : string) (nows : list Z) (this : RateLimiter)
  : list bool * RateLimiter :=
  match nows with
  | [] => ([], this)
  | now :: nows =>
      let '(d, this) := isAllowed now ip this in
      let '(ds, this) := checks ip nows this in
      (Decision.allowed d :: ds, this)
  end.

(** The entries of [l] that lie strictly after [windowStart]: the purge of
    [isAllowed] and of [getStats] at instant [now]. *)
Definition live (now : Z) (this : RateLimiter) (l : list Z) : list Z :=
  filter (λ time, now - windowMs this < time) l.

(** Every stored history has at most [maxRequests] entries. *)
Definition within_quota (this : RateLimiter) : Prop :=
  ∀ ip l, requests this !! ip = Some l →
          Z.of_nat (length l) ≤ maxRequests this.

(** Successive [getStats] calls, each with its key and instant. *)
Definition stats_calls (qs : list (string * Z)) (this : RateLimiter)
  : RateLimiter :=
  foldl (λ this q, (getStats q.2 q.1 this).2) this qs.

(** The instants of the [isAllowed] calls for key [k] in a sequence of
    calls, in call order. *)
Fixpoint check_instants (k : string) (cs : list call) : list Z :=
  match cs with
  | [] => []
  | Check ip now :: cs =>
      if decide (ip = k) then now :: check_instants k cs
      else check_instants k cs
  | _ :: cs => check_instants k cs
  end.

(** [n] calls of [isAllowed], the [i]-th for the key that spells [i] in
    decimal at instant [i * gap]. *)
Definition distinct_keys_trace (gap : Z) (n : nat) : list call :=
  (λ i : nat, Check (pretty i) (Z.of_nat i * gap)) <$> seq 0 n.

(** The history stored for [k] is ordered by [R], and each of its
    timestamps is [R]-related to every instant of [upcoming]. *)
Definition ordered_before (R : relation Z) (k : string) (upcoming : list Z)
    (this : RateLimiter) : Prop :=
  StronglySorted R (stored k this)
  ∧ Forall (λ x, Forall (R x) upcoming) (stored k this).

(** A limiter whose key ["K"] has used its quota of 2. *)
Definition exhausted : RateLimiter :=
  run (fresh 2 10000) [Check "K" 0; Check "K" 1; Check "K" 2].

(** The key a call is about. *)
Definition call_key (c : call) : string :=
  match c with
  | Check ip _ | Reset ip | GetStats ip _ => ip
  end.

(** Two limiters with the same configuration and the same entry for [k]. *)
Definition agree (k : string) (s1 s2 : RateLimiter) : Prop :=
  requests s1 !! k = requests s2 !! k
  ∧ maxRequests s1 = maxRequests s2
  ∧ windowMs s1 = windowMs s2.

(** ** The rate-limiting middleware (server.js)

    The request is reduced to the four address properties the middleware
    reads, each a string or [undefined] ([None]).  The response is the list
    of headers set by [res.set], followed either by the call of [next()] or
    by the status and JSON body sent.  [remaining.toString()] and the
    template literal print an integer in decimal ([pretty]);
    [new Date(t).toISOString()] is a parameter. *)

Record request : Type := mkRequest {
  req_ip : option string;
  req_connection_remoteAddress : option string;
  req_socket_remoteAddress : option string;
  req_connection_socket_remoteAddress : option string
}.

(** The body of the 429 response. *)
Module TooManyRequests.
Record t : Type := mk {
  error : string;
  message : string;
  retryAfter : Z;
  resetTime : string
}.
End TooManyRequests.


(** [a || b] on values that are strings or [undefined]: [a] when it is a
    non-empty string, else [b]. *)
Definition JS_or (a b : option string) : option string :=
  match a with
  | Some s => if decide (s = "") then b else a
  | None => b
  end.

(** The key the middleware hands to the limiter: the first address that is
    a non-empty string, ['::1'] when there is none, and both spellings of
    the loopback address as ['127.0.0.1']. *)
Definition clientIp (req : request) : string :=
  let clientIp :=
    default "::1"
      (JS_or (JS_or (JS_or (JS_or (req_ip req)
                              (req_connection_remoteAddress req))
                       (req_socket_remoteAddress req))
                (req_connection_socket_remoteAddress req))
         (Some "::1")) in
  if decide (clientIp = "::1" ∨ clientIp = "127.0.0.1") then "127.0.0.1"
  else clientIp.






(** ** The short-id generator (hashGenerator.js)

    [crypto] is outside the repository: the number that [generate] obtains
    from it, [BigInt('0x' + hash.substring(0, 16))] for [hash] the SHA-256
    hex digest of the input, is the parameter [sha256_prefix64].  The
    storage enters [generateUnique] through [storage.exists] alone, taken
    as a function of the id: the collection as it stands while the call
    runs. *)

Definition base62Chars : string :=
  "0123456789abcdefghijklmnopqrstuvwxyzABCDEFGHIJKLMNOPQRSTUVWXYZ".

(** [i] rounds of the loop of [generate]: prepend the digit of [num % 62],
    go on with [num / 62].  An index outside the string would yield
    [undefined], printed as such by [+]; [num % 62] never is. *)
Fixpoint generate_loop (i : nat) (num : N) (result : string) : string :=
  match i with
  | O => result
  | S i =>
      let result :=
        match String.get (N.to_nat (num mod 62)) base62Chars with
        | Some c => String c result
        | None => "undefined" +:+ result
        end in
      generate_loop i (num / 62)%N result
  end.

(** [generate(longUrl, attempt)]. *)
Definition generate (sha256_prefix64 : string → N) (longUrl : string)
    (attempt : nat) : string :=
  let input := longUrl +:+ ":" +:+ pretty attempt in
  let num := sha256_prefix64 input in
  generate_loop 7 num "".

(** How [generateUnique] completes. *)
Inductive unique_result : Type :=
| Returned (shortId : string)
| Thrown (message : string).

(** The [while] loop of [generateUnique], from the state [(attempt,
    shortId)]; it runs at most 1000 times, [fuel] bounds the rounds. *)
Fixpoint generateUnique_loop (sha256_prefix64 : string → N)
    (storage_exists : string → bool) (longUrl : string) (fuel : nat)
    (attempt : nat) (shortId : string) : nat * string :=
  match fuel with
  | O => (attempt, shortId)
  | S fuel =>
      if storage_exists shortId && bool_decide (attempt < 1000)%nat then
        generateUnique_loop sha256_prefix64 storage_exists longUrl fuel
          (S attempt) (generate sha256_prefix64 longUrl (S attempt))
      else (attempt, shortId)
  end.

(** [generateUnique(longUrl)]. *)
Definition generateUnique (sha256_prefix64 : string → N)
    (storage_exists : string → bool) (longUrl : string) : unique_result :=
  let '(attempt, shortId) :=
    generateUnique_loop sha256_prefix64 storage_exists longUrl 1001 0
      (generate sha256_prefix64 longUrl 0) in
  if bool_decide (1000 ≤ attempt)%nat then
    Thrown "Failed to generate unique ID after 1000 attempts"
  else Returned shortId.

(** The characters of [base62Chars]. *)
Definition base62 (c : Ascii.ascii) : Prop :=
  c ∈ String.list_ascii_of_string base62Chars.

(** The [i] lowest base-62 digits of [num], lowest first. *)
Fixpoint digits62 (i : nat) (num : N) : list N :=
  match i with
  | O => []
  | S i => (num mod 62)%N :: digits62 i (num / 62)%N
  end.

(** The character that [generate] prints for a digit. *)
Definition digit_char (d : N) : Ascii.ascii :=
  default Ascii.zero (String.list_ascii_of_string base62Chars !! N.to_nat d).

(** A stand-in for the digest, the length of the input, and a storage that
    holds one id: the id of ["http://a"] for attempts 0 to 9. *)
Definition digest_of_length (input : string) : N :=
  N.of_nat (String.length input).

Definition taken_once (shortId : string) : bool :=
  bool_decide (shortId = "000000a").

(** ** Two routes (server.js)

    The storage sits on a database outside the repository.  A handler sees
    it through what its awaited calls return, and these are parameters:
    [storage_exists], [storage_save] and [storage_getLongUrl] stand for the
    results of [urlStorage.exists], [urlStorage.save] and
    [urlStorage.getLongUrl], the same throughout one request.
    [isValidUrl] wraps the URL parser of the platform and is a parameter
    too.  The fields of the request body are strings or [undefined]; the
    length of a string is its number of characters, which for the strings
    that pass the alias pattern (ASCII only) is what [.length] counts. *)

(** What [urlStorage.save] resolves to. *)
Module UrlObj.
Record t : Type := mk {
  shortId : string;
  longUrl : string;
  createdAt : string;
  clicks : Z
}.
End UrlObj.

(** How [urlStorage.save] completes: with the stored object, or by
    throwing an error with a message. *)
Inductive save_result : Type :=
| Saved (urlObj : UrlObj.t)
| SaveThrown (message : string).

(** A JSON body: an error with its message, or the success of
    [POST /api/shorten]. *)
Inductive body : Type :=
| Failure (error message : string)
| Success (shortUrl : string) (urlObj : UrlObj.t).

(** A string between double quotes (character 34), and the full stop
    (character 46). *)
Definition quoted (s : string) : string :=
  String (Ascii.ascii_of_nat 34) (s +:+ String (Ascii.ascii_of_nat 34) "").

Definition full_stop : Ascii.ascii := Ascii.ascii_of_nat 46.

(** Whether a value is truthy: a non-empty string. *)
Definition truthy (v : option string) : bool :=
  match v with
  | Some s => negb (bool_decide (s = ""))
  | None => false
  end.

(** The characters of the class [[a-zA-Z0-9_-]]. *)
Definition alias_chars : string :=
  "abcdefghijklmnopqrstuvwxyzABCDEFGHIJKLMNOPQRSTUVWXYZ0123456789_-".

Definition alias_char (c : Ascii.ascii) : Prop :=
  c ∈ String.list_ascii_of_string alias_chars.

(** [/^[a-zA-Z0-9_-]+$/.test(s)]. *)
Definition alias_pattern_test (s : string) : bool :=
  bool_decide (s ≠ "" ∧ Forall alias_char (String.list_ascii_of_string s)).

(** The handler of [POST /api/shorten], after the middleware: status and
    body of the response.  [protocol] and [host] are [req.protocol] and
    [req.get('host')]. *)
Definition post_api_shorten (sha256_prefix64 : string → N)
    (isValidUrl : string → bool) (storage_exists : string → bool)
    (storage_save : string → string → option string → save_result)
    (protocol host : string) (longUrl customAlias : option string)
  : Z * body :=
  if negb (truthy longUrl) then
    (400, Failure "Missing required field" "longUrl is required")
  else
  let longUrl := default "" longUrl in
  if negb (isValidUrl longUrl) then
    (400, Failure "Invalid URL" "The provided URL is not valid")
  else
  let alias := default "" customAlias in
  if truthy customAlias
     && (bool_decide (String.length alias < 3)%nat
         || bool_decide (20 < String.length alias)%nat) then
    (400, Failure "Invalid alias" "Alias must be between 3 and 20 characters")
  else if truthy customAlias && negb (alias_pattern_test alias) then
    (400, Failure "Invalid alias"
            "Alias can only contain letters, numbers, hyphens, and underscores")
  else if truthy customAlias && storage_exists alias then
    (409, Failure "Alias already taken"
            ("The alias " +:+ quoted alias +:+ " is already in use"))
  else
    let server_error message :=
      (500, Failure "Server error"
              (if bool_decide (message = "")
               then "Failed to create shortened URL" else message)) in
    match (if truthy customAlias then Returned alias
           else generateUnique sha256_prefix64 storage_exists longUrl) with
    | Thrown message => server_error message
    | Returned shortId =>
        match storage_save shortId longUrl customAlias with
        | SaveThrown message => server_error message
        | Saved urlObj =>
            (201, Success (protocol +:+ "://" +:+ host +:+ "/" +:+ shortId)
                    urlObj)
        end
    end.

(** What [GET /:shortId] answers: a 404 with a message, or the redirect
    with status 301. *)
Inductive redirect_response : Type :=
| NotFound (message : string)
| Redirect (longUrl : string).

(** The handler of [GET /:shortId], after the middleware: the response,
    and the ids for which it called [urlStorage.incrementClicks]. *)
Definition get_shortId (storage_getLongUrl : string → option string)
    (shortId : string) : redirect_response * list string :=
  if String.prefix "api" shortId
     || bool_decide (full_stop ∈ String.list_ascii_of_string shortId) then
    (NotFound "Resource not found", [])
  else
    let longUrl := storage_getLongUrl shortId in
    if negb (truthy longUrl) then
      (NotFound ("Short URL " +:+ quoted shortId +:+ " not found"), [])
    else (Redirect (default "" longUrl), [shortId]).

(** A storage that holds nothing and saves whatever it is given. *)
Definition save_any (shortId longUrl : string) (customAlias : option string)
  : save_result :=
  Saved (UrlObj.mk shortId longUrl "2025-11-18T10:30:00.000Z" 0).

(** ** Scenarios of the test script and of the specification *)

(** Quota 5, window 10 s, eight calls one millisecond apart. *)
Example scenario_quota5 :
  (checks "K" [100; 101; 102; 103; 104; 105; 106; 107] (fresh 5 10000)).1
  = [true; true; true; true; true; false; false; false].
Proof. vm_compute. reflexivity. Qed.

Example scenario_quota5_sixth :
  (isAllowed 105 "K"
     (run (fresh 5 10000)
        [Check "K" 100; Check "K" 101; Check "K" 102; Check "K" 103;
         Check "K" 104])).1
  = Decision.mk false 0 10100 10.
Proof. vm_compute. reflexivity. Qed.

(** The [remaining] of the five admitted calls of that scenario. *)
Example scenario_quota5_remaining :
  let this := fresh 5 10000 in
  let r1 := isAllowed 100 "K" this in
  let r2 := isAllowed 101 "K" r1.2 in
  let r3 := isAllowed 102 "K" r2.2 in
  let r4 := isAllowed 103 "K" r3.2 in
  let r5 := isAllowed 104 "K" r4.2 in
  Decision.remaining <$> [r1.1; r2.1; r3.1; r4.1; r5.1] = [4; 3; 2; 1; 0]
  ∧ Decision.resetTime <$> [r1.1; r2.1; r3.1; r4.1; r5.1]
    = [10100; 10100; 10100; 10100; 10100].
Proof. vm_compute. done. Qed.

(** Quota 2, window 5 s: the third call is rejected with [retryAfter = 3]. *)
Example scenario_retry_after :
  (isAllowed 2000 "K" (run (fresh 2 5000) [Check "K" 0; Check "K" 1000])).1
  = Decision.mk false 0 5000 3.
Proof. vm_compute. reflexivity. Qed.

(** ** Basic facts *)

Lemma Math_ceil_div_spec (x d : Z) :
  0 < d → d * (Math_ceil_div x d - 1) < x ≤ d * Math_ceil_div x d.
Proof.
  intros Hd. unfold Math_ceil_div.
  pose proof (Z.div_mod (- x) d ltac:(lia)) as Hdm.
  pose proof (Z.mod_pos_bound (- x) d Hd) as Hb.
  nia.
Qed.

Lemma constructor_fresh (m w : Z) :
  constructor (Some m) (Some w) = Normal (fresh m w).
Proof. reflexivity. Qed.

Lemma Map_has_true (ip : string) (m : gmap string (list Z)) (l : list Z) :
  m !! ip = Some l → Map_has ip m = true.
Proof. intros E. apply bool_decide_eq_true_2. by exists l. Qed.

Lemma Map_has_false (ip : string) (m : gmap string (list Z)) :
  m !! ip = None → Map_has ip m = false.
Proof.
  intros E. apply bool_decide_eq_false_2. rewrite E. by intros [? ?].
Qed.

(** [isAllowed] in closed form: the has/set prologue and the two stores of
    the body amount to one update of the entry of [ip]. *)
Lemma isAllowed_eq (now : Z) (ip : string) (this : RateLimiter) :
  isAllowed now ip this
  = let kept := live now this (stored ip this) in
    let count := Z.of_nat (length kept) in
    let ok := bool_decide (count < maxRequests this) in
    let ts := if ok then kept ++ [now] else kept in
    let rt := match ts with
              | t0 :: _ => t0 + windowMs this
              | [] => now + windowMs this
              end in
    (Decision.mk ok
       (Z.max 0 (maxRequests this - (if ok then count + 1 else count)))
       rt (if ok then 0 else Math_ceil_div (rt - now) 1000),
     set_requests this (<[ip := ts]> (requests this))).
Proof.
  unfold isAllowed, live, stored. cbn.
  destruct (requests this !! ip) as [l|] eqn:E.
  - rewrite (Map_has_true _ _ _ E). unfold Map_get, Map_set. rewrite E. cbn.
    case_bool_decide; [by rewrite insert_insert_eq | done].
  - rewrite (Map_has_false _ _ E). unfold Map_get, Map_set.
    rewrite lookup_insert_eq. cbn.
    case_bool_decide; by rewrite !insert_insert_eq.
Qed.

Lemma isAllowed_requests (now : Z) (ip : string) (this : RateLimiter) :
  requests (isAllowed now ip this).2
  = <[ip := if bool_decide (Z.of_nat (length (live now this (stored ip this)))
                            < maxRequests this)
            then live now this (stored ip this) ++ [now]
            else live now this (stored ip this)]> (requests this).
Proof. by rewrite isAllowed_eq. Qed.

Lemma isAllowed_config (now : Z) (ip : string) (this : RateLimiter) :
  maxRequests (isAllowed now ip this).2 = maxRequests this
  ∧ windowMs (isAllowed now ip this).2 = windowMs this.
Proof. done. Qed.

Lemma isAllowed_allowed (now : Z) (ip : string) (this : RateLimiter) :
  Decision.allowed (isAllowed now ip this).1
  = bool_decide (Z.of_nat (length (live now this (stored ip this)))
                 < maxRequests this).
Proof. by rewrite isAllowed_eq. Qed.

Lemma stored_isAllowed (now : Z) (ip : string) (this : RateLimiter) :
  stored ip (isAllowed now ip this).2
  = if Decision.allowed (isAllowed now ip this).1
    then live now this (stored ip this) ++ [now]
    else live now this (stored ip this).
Proof.
  rewrite isAllowed_allowed. unfold stored at 1.
  by rewrite isAllowed_requests, lookup_insert_eq.
Qed.

Lemma stored_isAllowed_ne (now : Z) (ip k : string) (this : RateLimiter) :
  ip ≠ k → stored k (isAllowed now ip this).2 = stored k this.
Proof.
  intros Hne. unfold stored.
  by rewrite isAllowed_requests, lookup_insert_ne.
Qed.

Lemma getStats_state (now : Z) (ip : string) (this : RateLimiter) :
  (getStats now ip this).2 = this.
Proof. unfold getStats. by destruct (negb _). Qed.

Lemma stored_reset (ip k : string) (this : RateLimiter) :
  stored k (reset ip this) = if decide (ip = k) then [] else stored k this.
Proof.
  unfold stored, reset, Map_delete. cbn. rewrite lookup_delete.
  by case_decide.
Qed.

Lemma run_cons (this : RateLimiter) (c : call) (cs : list call) :
  run this (c :: cs) = run (step this c) cs.
Proof. done. Qed.

Lemma run_snoc (this : RateLimiter) (cs : list call) (c : call) :
  run this (cs ++ [c]) = step (run this cs) c.
Proof. unfold run. by rewrite foldl_snoc. Qed.

Lemma run_config (this : RateLimiter) (cs : list call) :
  maxRequests (run this cs) = maxRequests this
  ∧ windowMs (run this cs) = windowMs this.
Proof.
  revert this. induction cs as [|c cs IH]; intros this; [done|].
  rewrite run_cons. destruct (IH (step this c)) as [-> ->].
  destruct c; cbn; try done. by rewrite getStats_state.
Qed.

Lemma length_live (now : Z) (this : RateLimiter) (l : list Z) :
  (length (live now this l) ≤ length l)%nat.
Proof. apply length_filter. Qed.

(** ** The quota invariant *)

Lemma within_quota_fresh (m w : Z) : within_quota (fresh m w).
Proof. intros ip l. cbn. by rewrite lookup_empty. Qed.

Lemma within_quota_isAllowed (now : Z) (ip : string) (this : RateLimiter) :
  0 ≤ maxRequests this →
  within_quota this → within_quota (isAllowed now ip this).2.
Proof.
  intros Hm Hq k l. rewrite isAllowed_requests.
  destruct (decide (ip = k)) as [->|Hne].
  - rewrite lookup_insert_eq. intros [= <-]. cbn.
    case_bool_decide as Hlt.
    + rewrite length_app. cbn. lia.
    + pose proof (length_live now this (stored k this)) as Hlen.
      unfold stored in *.
      destruct (requests this !! k) as [l0|] eqn:E; cbn in *.
      * specialize (Hq k l0 E). lia.
      * lia.
  - rewrite lookup_insert_ne by done. apply Hq.
Qed.

Lemma within_quota_step (this : RateLimiter) (c : call) :
  0 ≤ maxRequests this →
  within_quota this → within_quota (step this c).
Proof.
  intros Hm Hq. destruct c as [ip now|ip|ip now]; cbn.
  - by apply within_quota_isAllowed.
  - intros k l. unfold reset, Map_delete. cbn. rewrite lookup_delete.
    case_decide; [done | apply Hq].
  - by rewrite getStats_state.
Qed.

Lemma step_config (this : RateLimiter) (c : call) :
  maxRequests (step this c) = maxRequests this
  ∧ windowMs (step this c) = windowMs this.
Proof. destruct c; cbn; try done. by rewrite getStats_state. Qed.

Lemma within_quota_run (this : RateLimiter) (cs : list call) :
  0 ≤ maxRequests this →
  within_quota this → within_quota (run this cs).
Proof.
  revert this. induction cs as [|c cs IH]; intros this Hm Hq; [done|].
  rewrite run_cons. apply IH.
  - by rewrite (proj1 (step_config this c)).
  - by apply within_quota_step.
Qed.

(** ** Claims *)

(** C1 (quota bound).  For a limiter constructed with positive [maxRequests]
    and [windowMs], after any sequence of [isAllowed], [reset] and [getStats]
    calls, at whatever instants, and for any key [k] and observation instant
    [t], the number of timestamps stored for [k] that are strictly greater
    than [t - windowMs] is at most [maxRequests]. *)
Theorem quota_bound (m w : Z) (cs : list call) (k : string) (t : Z) :
  0 < m → 0 < w →
  Z.of_nat (length (filter (λ x, t - w < x) (stored k (run (fresh m w) cs))))
  ≤ m.
Proof.
  intros Hm _.
  pose proof (within_quota_run (fresh m w) cs ltac:(cbn; lia)
                (within_quota_fresh m w)) as Hq.
  pose proof (length_filter (λ x, t - w < x)
                (stored k (run (fresh m w) cs))) as Hlen.
  unfold within_quota in Hq.
  rewrite (proj1 (run_config (fresh m w) cs)) in Hq. cbn in Hq.
  unfold stored in *.
  destruct (requests (run (fresh m w) cs) !! k) as [l|] eqn:E; cbn in *.
  - specialize (Hq k l E). lia.
  - lia.
Qed.

Lemma quota_bound_witness :
  Z.of_nat (length (filter (λ x, 1500 - 1000 < x)
     (stored "K" (run (fresh 2 1000)
        [Check "K" 0; Check "K" 600; Check "K" 700; GetStats "K" 800;
         Check "J" 900; Reset "J"; Check "K" 1200]))))
  ≤ 2.
Proof. apply (quota_bound 2 1000); lia. Defined.


(** C2 (decision formula).  Let [kept] be the history of the key after the
    purge at [now] and [count] its length.  If [count < maxRequests] the
    call stores [kept ++ [now]] and returns [allowed = true],
    [remaining = maxRequests - (count + 1)], [retryAfter = 0]; otherwise it
    stores [kept] and returns [allowed = false], [remaining = 0] and
    [retryAfter] the ceiling of [(resetTime - now) / 1000].  In both cases
    [resetTime] is the head of the stored history plus [windowMs], or
    [now + windowMs] when that history is empty. *)
Theorem check_decision (this : RateLimiter) (ip : string) (now : Z) :
  let kept := live now this (stored ip this) in
  let count := Z.of_nat (length kept) in
  let d := (isAllowed now ip this).1 in
  let after := stored ip (isAllowed now ip this).2 in
  (if decide (count < maxRequests this) then
     after = kept ++ [now]
     ∧ Decision.allowed d = true
     ∧ Decision.remaining d = maxRequests this - (count + 1)
     ∧ Decision.retryAfter d = 0
   else
     after = kept
     ∧ Decision.allowed d = false
     ∧ Decision.remaining d = 0
     ∧ 1000 * (Decision.retryAfter d - 1)
       < Decision.resetTime d - now
       ≤ 1000 * Decision.retryAfter d)
  ∧ Decision.resetTime d
    = match after with
      | t0 :: _ => t0 + windowMs this
      | [] => now + windowMs this
      end.
Proof.
  cbn zeta. rewrite stored_isAllowed, isAllowed_eq. cbn.
  case_decide as Hlt.
  - rewrite bool_decide_eq_true_2 by done.
    repeat split; try done. lia.
  - rewrite bool_decide_eq_false_2 by done.
    repeat split; try done; try lia;
      apply (Math_ceil_div_spec _ 1000); lia.
Qed.

(** C3, as the code has it.  Construction never fails: whatever the two
    numbers, zero and negative ones included, the constructor completes
    normally and stores them unchanged (an omitted argument takes its
    default, 10 and 60000), with an empty store. *)
Theorem constructor_accepts (m w : option Z) :
  ∃ this, constructor m w = Normal this
          ∧ maxRequests this = default 10 m
          ∧ windowMs this = default 60000 w
          ∧ requests this = ∅.
Proof. by eexists. Qed.

(** C3 as stated fails: quota 0, or a window of -5 ms, is accepted. *)
Lemma constructor_no_validation :
  constructor (Some 0) (Some 60000) ≠ Throw ConfigurationError
  ∧ constructor (Some 10) (Some (-5)) ≠ Throw ConfigurationError.
Proof. split; discriminate. Qed.

(** What an accepted quota of zero or less does: no call is ever admitted. *)
Lemma nonpositive_quota_rejects (this : RateLimiter) (ip : string) (now : Z) :
  maxRequests this ≤ 0 → Decision.allowed (isAllowed now ip this).1 = false.
Proof.
  intros Hm. rewrite isAllowed_allowed. apply bool_decide_eq_false_2. lia.
Qed.

(** C10 (stats on an unknown key).  For a key without an entry [getStats]
    returns [requestCount = 0], [remaining = maxRequests] and
    [resetTime = now + windowMs], and leaves the limiter as it was, so the
    key still has no entry. *)
Theorem getStats_unknown (this : RateLimiter) (ip : string) (now : Z) :
  requests this !! ip = None →
  getStats now ip this
  = (Stats.mk 0 (maxRequests this) (now + windowMs this), this)
  ∧ requests (getStats now ip this).2 !! ip = None.
Proof.
  intros E. unfold getStats. by rewrite (Map_has_false _ _ E).
Qed.

Lemma getStats_unknown_witness :
  getStats 1000 "10.0.0.1" (run (fresh 30 60000) [Check "10.0.0.2" 5])
  = (Stats.mk 0 30 61000, run (fresh 30 60000) [Check "10.0.0.2" 5])
  ∧ requests (getStats 1000 "10.0.0.1"
                (run (fresh 30 60000) [Check "10.0.0.2" 5])).2 !! "10.0.0.1"
    = None.
Proof.
  apply (getStats_unknown (run (fresh 30 60000) [Check "10.0.0.2" 5])).
  vm_compute. reflexivity.
Defined.

(** C5, as the code has it.  [reset(ip)] removes the entry of [ip] from the
    store altogether, whatever its history, and leaves every other entry and
    the configuration as they were; the key is afterwards indistinguishable
    from one never seen. *)
Theorem reset_removes_entry (this : RateLimiter) (ip k : string) (now : Z) :
  requests (reset ip this) !! k
  = (if decide (k = ip) then None else requests this !! k)
  ∧ maxRequests (reset ip this) = maxRequests this
  ∧ windowMs (reset ip this) = windowMs this
  ∧ (getStats now ip (reset ip this)).1
    = Stats.mk 0 (maxRequests this) (now + windowMs this).
Proof.
  split; [|split; [done|split; [done|]]].
  - unfold reset, Map_delete. cbn. rewrite lookup_delete.
    repeat case_decide; congruence.
  - assert (requests (reset ip this) !! ip = None) as E
      by apply lookup_delete_eq.
    unfold getStats. by rewrite (Map_has_false _ _ E).
Qed.

(** C5 as stated fails: after [reset] the key has no entry, rather than an
    entry with an empty history. *)
Lemma reset_keeps_no_entry :
  requests (reset "K" exhausted) !! "K" ≠ Some [].
Proof. vm_compute. discriminate. Qed.

(** The history of a key grows by at most one entry per call. *)
Lemma length_stored_isAllowed (now : Z) (ip : string) (this : RateLimiter) :
  (length (stored ip (isAllowed now ip this).2) ≤ S (length (stored ip this)))%nat.
Proof.
  rewrite stored_isAllowed.
  pose proof (length_live now this (stored ip this)).
  destruct (Decision.allowed _); [rewrite length_app; cbn|]; lia.
Qed.

Lemma checks_cons (ip : string) (now : Z) (nows : list Z)
    (this : RateLimiter) :
  (checks ip (now :: nows) this).1
  = Decision.allowed (isAllowed now ip this).1
    :: (checks ip nows (isAllowed now ip this).2).1.
Proof.
  cbn [checks]. destruct (isAllowed now ip this) as [d this'].
  cbn [fst snd]. by destruct (checks ip nows this').
Qed.

(** While the history of the key and the calls still to come fit in the
    quota together, every call is admitted. *)
Lemma checks_allowed (ip : string) (nows : list Z) (this : RateLimiter) :
  Z.of_nat (length (stored ip this)) + Z.of_nat (length nows)
  ≤ maxRequests this →
  (checks ip nows this).1 = replicate (length nows) true.
Proof.
  revert this. induction nows as [|now nows IH]; intros this Hfit; [done|].
  rewrite checks_cons. cbn [length replicate] in *.
  pose proof (length_live now this (stored ip this)) as Hlive.
  pose proof (length_stored_isAllowed now ip this) as Hgrow.
  rewrite isAllowed_allowed, bool_decide_eq_true_2 by lia.
  f_equal. apply IH. rewrite (proj1 (isAllowed_config now ip this)). lia.
Qed.

(** C6 (reset restores full quota).  Whatever the limiter holds, after
    [reset(ip)] the next [maxRequests] calls of [isAllowed(ip)] (or fewer)
    are all admitted, at whatever instants they arrive. *)
Theorem reset_restores_quota (this : RateLimiter) (ip : string)
    (nows : list Z) :
  Z.of_nat (length nows) ≤ maxRequests this →
  (checks ip nows (reset ip this)).1 = replicate (length nows) true.
Proof.
  intros Hn. apply checks_allowed.
  rewrite stored_reset, decide_True by done. cbn. lia.
Qed.

Lemma reset_restores_quota_witness :
  (checks "K" [3; 4] exhausted).1 = [false; false]
  ∧ (checks "K" [3; 4] (reset "K" exhausted)).1 = [true; true].
Proof.
  split; [vm_compute; reflexivity|].
  apply (reset_restores_quota exhausted "K" [3; 4]). vm_compute. discriminate.
Defined.

(** C7 (stats is read-only).  Any number of [getStats] calls, for any keys
    at any instants, leave the limiter exactly as it was; a following
    [isAllowed] therefore returns the same decision and reaches the same
    state as without them. *)
Theorem getStats_read_only (this : RateLimiter) (qs : list (string * Z))
    (ip : string) (now : Z) :
  stats_calls qs this = this
  ∧ isAllowed now ip (stats_calls qs this) = isAllowed now ip this.
Proof.
  assert (stats_calls qs this = this) as ->; [|done].
  revert this. induction qs as [|q qs IH]; intros this; [done|].
  unfold stats_calls in *. cbn [foldl]. rewrite getStats_state. apply IH.
Qed.

Lemma elem_of_live (now : Z) (this : RateLimiter) (l : list Z) (x : Z) :
  x ∈ live now this l ↔ x ∈ l ∧ now - windowMs this < x.
Proof. unfold live. rewrite list_elem_of_filter. tauto. Qed.

Lemma getStats_requestCount (now : Z) (ip : string) (this : RateLimiter) :
  Stats.requestCount (getStats now ip this).1
  = Z.of_nat (length (live now this (stored ip this))).
Proof.
  unfold getStats, live, stored.
  destruct (requests this !! ip) as [l|] eqn:E.
  - rewrite (Map_has_true _ _ _ E). unfold Map_get. by rewrite E.
  - by rewrite (Map_has_false _ _ E).
Qed.

(** C8 (half-open window).  With [windowStart = now - windowMs], the purge
    keeps a stored timestamp exactly when it is strictly greater than
    [windowStart]; one equal to [windowStart] is dropped.  The kept entries
    are what [isAllowed] stores (before the admitted instant it may append)
    and what [getStats] counts. *)
Theorem window_half_open (this : RateLimiter) (ip : string) (now : Z) :
  let windowStart := now - windowMs this in
  let kept := live now this (stored ip this) in
  (∀ x, x ∈ kept ↔ x ∈ stored ip this ∧ windowStart < x)
  ∧ ¬ (windowStart ∈ kept)
  ∧ stored ip (isAllowed now ip this).2
    = (if Decision.allowed (isAllowed now ip this).1
       then kept ++ [now] else kept)
  ∧ Stats.requestCount (getStats now ip this).1 = Z.of_nat (length kept).
Proof.
  cbn zeta. split; [|split; [|split]].
  - intros x. apply elem_of_live.
  - rewrite elem_of_live. lia.
  - apply stored_isAllowed.
  - apply getStats_requestCount.
Qed.

(** A timestamp that sits exactly on [windowStart] no longer counts, one
    a millisecond later still does. *)
Example boundary_expired :
  let this := run (fresh 2 1000) [Check "K" 0; Check "K" 1] in
  Stats.requestCount (getStats 1000 "K" this).1 = 1
  ∧ stored "K" (isAllowed 1000 "K" this).2 = [1; 1000]
  ∧ stored "K" (isAllowed 1001 "K" this).2 = [1001].
Proof. vm_compute. done. Qed.

(** ** Order of the stored timestamps *)

Section order.
Context (R : relation Z) (k : string).

Lemma StronglySorted_live (now : Z) (this : RateLimiter) (l : list Z) :
  StronglySorted R l → StronglySorted R (live now this l).
Proof.
  unfold live. induction l as [|x l IH]; [done|].
  rewrite StronglySorted_cons. intros [Hx Hl].
  rewrite filter_cons. case_decide; [|by apply IH].
  apply StronglySorted_cons. split; [|by apply IH].
  rewrite Forall_forall in *. intros y [_ Hy]%list_elem_of_filter. by apply Hx.
Qed.

Lemma ordered_before_fresh (upcoming : list Z) (m w : Z) :
  ordered_before R k upcoming (fresh m w).
Proof. split; constructor. Qed.

(** An admitted instant goes to the end of the history, after entries that
    were all related to it while it was still to come. *)
Lemma ordered_before_isAllowed (now : Z) (upcoming : list Z)
    (this : RateLimiter) :
  Forall (R now) upcoming →
  ordered_before R k (now :: upcoming) this →
  ordered_before R k upcoming (isAllowed now k this).2.
Proof.
  intros Hnow [Hs Hf]. unfold ordered_before.
  assert (Forall (λ x, R x now ∧ Forall (R x) upcoming)
            (live now this (stored k this))) as Hkept.
  { rewrite Forall_forall in *. intros x [Hx _]%elem_of_live.
    specialize (Hf x Hx). by apply Forall_cons in Hf. }
  apply (StronglySorted_live now this) in Hs.
  rewrite stored_isAllowed. destruct (Decision.allowed _).
  - split.
    + apply StronglySorted_app. split; [|split; [done|repeat constructor]].
      intros x y Hx ->%list_elem_of_singleton.
      rewrite Forall_forall in Hkept. by apply Hkept.
    + apply Forall_app. split; [|by repeat constructor].
      eapply Forall_impl; [exact Hkept|]. by intros x [_ ?].
  - split; [done|]. eapply Forall_impl; [exact Hkept|]. by intros x [_ ?].
Qed.

Lemma ordered_before_reset (ip : string) (upcoming : list Z)
    (this : RateLimiter) :
  ordered_before R k upcoming this →
  ordered_before R k upcoming (reset ip this).
Proof.
  unfold ordered_before. rewrite stored_reset.
  case_decide; [split; constructor | done].
Qed.

Lemma ordered_before_run (cs : list call) (this : RateLimiter) :
  StronglySorted R (check_instants k cs) →
  ordered_before R k (check_instants k cs) this →
  ordered_before R k [] (run this cs).
Proof.
  revert this. induction cs as [|c cs IH]; intros this Hcs Hord; [done|].
  rewrite run_cons.
  destruct c as [ip now|ip|ip now]; cbn [check_instants step] in *.
  - destruct (decide (ip = k)) as [->|Hne].
    + apply StronglySorted_cons in Hcs as [Hnow Hcs].
      apply IH; [done|]. by apply ordered_before_isAllowed.
    + apply IH; [done|]. unfold ordered_before.
      by rewrite stored_isAllowed_ne.
  - apply IH; [done|]. by apply ordered_before_reset.
  - rewrite getStats_state. by apply IH.
Qed.

End order.

(** C9, as the code has it.  When the instants of the [isAllowed] calls for
    a key never decrease, the history stored for that key is in
    non-decreasing order; when they strictly increase, it is strictly
    increasing.  Calls at one same instant store that instant once per
    admitted call. *)
Theorem timestamps_sorted (m w : Z) (cs : list call) (k : string) :
  (StronglySorted Z.le (check_instants k cs) →
   StronglySorted Z.le (stored k (run (fresh m w) cs)))
  ∧ (StronglySorted Z.lt (check_instants k cs) →
     StronglySorted Z.lt (stored k (run (fresh m w) cs))).
Proof.
  assert (∀ R : relation Z, StronglySorted R (check_instants k cs) →
            StronglySorted R (stored k (run (fresh m w) cs))) as Hgen.
  { intros R Hcs.
    by destruct (ordered_before_run R k cs (fresh m w) Hcs
                   (ordered_before_fresh R k _ m w)). }
  split; apply Hgen.
Qed.

Lemma timestamps_sorted_witness :
  StronglySorted Z.le
    (stored "K" (run (fresh 3 1000)
                   [Check "K" 5; Check "K" 5; Reset "J"; Check "K" 7]))
  ∧ StronglySorted Z.lt
      (stored "K" (run (fresh 3 1000)
                     [Check "K" 5; Check "J" 5; GetStats "K" 6; Check "K" 7])).
Proof.
  split.
  - apply (proj1 (timestamps_sorted 3 1000
       [Check "K" 5; Check "K" 5; Reset "J"; Check "K" 7] "K")).
    cbn. repeat constructor; lia.
  - apply (proj2 (timestamps_sorted 3 1000
       [Check "K" 5; Check "J" 5; GetStats "K" 6; Check "K" 7] "K")).
    cbn. repeat constructor; lia.
Defined.

(** C9 as stated fails: two admitted calls at the same instant leave two
    equal neighbours in the history. *)
Lemma coinciding_instants_not_strict :
  ¬ StronglySorted Z.lt
      (stored "K" (run (fresh 2 1000) [Check "K" 5; Check "K" 5])).
Proof.
  assert (stored "K" (run (fresh 2 1000) [Check "K" 5; Check "K" 5]) = [5; 5])
    as -> by (vm_compute; reflexivity).
  intros [Hhd _]%StronglySorted_cons.
  apply Forall_cons in Hhd as [Hlt _]. lia.
Qed.

(** ** Which entries the store retains *)

Lemma dom_step (this : RateLimiter) (c : call) :
  dom (requests (step this c))
  = match c with
    | Check ip _ => {[ip]} ∪ dom (requests this)
    | Reset ip => dom (requests this) ∖ {[ip]}
    | GetStats _ _ => dom (requests this)
    end.
Proof.
  destruct c as [ip now|ip|ip now]; cbn [step].
  - by rewrite isAllowed_requests, dom_insert_L.
  - unfold reset, Map_delete. cbn. by rewrite dom_delete_L.
  - by rewrite getStats_state.
Qed.

Lemma distinct_keys_trace_S (gap : Z) (n : nat) :
  distinct_keys_trace gap (S n)
  = distinct_keys_trace gap n ++ [Check (pretty n) (Z.of_nat n * gap)].
Proof. unfold distinct_keys_trace. by rewrite seq_S, fmap_app. Qed.

Lemma dom_distinct_keys_trace (m w gap : Z) (n : nat) :
  dom (requests (run (fresh m w) (distinct_keys_trace gap n)))
  = list_to_set (pretty <$> seq 0 n).
Proof.
  induction n as [|n IH]; [apply dom_empty_L|].
  rewrite distinct_keys_trace_S, run_snoc, dom_step, IH.
  rewrite seq_S, fmap_app. cbn [fmap list_fmap].
  rewrite list_to_set_snoc_L. apply (comm_L (∪)).
Qed.

Lemma size_distinct_keys_trace (m w gap : Z) (n : nat) :
  size (requests (run (fresh m w) (distinct_keys_trace gap n))) = n.
Proof.
  rewrite <- size_dom, dom_distinct_keys_trace, size_list_to_set.
  - by rewrite length_fmap, length_seq.
  - apply NoDup_fmap_2; [apply _ | apply NoDup_seq].
Qed.

(** C4, as the code has it.  No call evicts an idle entry: [isAllowed(ip)]
    keeps every entry and adds one for [ip], [getStats] leaves the store as
    it is, and [reset(ip)] removes the entry of [ip] and no other.  Calls of
    [isAllowed] for [n] distinct keys therefore leave [n] entries in the
    store, however far apart in time they are. *)
Theorem entries_never_evicted (this : RateLimiter) (c : call)
    (m w gap : Z) (n : nat) :
  dom (requests (step this c))
  = match c with
    | Check ip _ => {[ip]} ∪ dom (requests this)
    | Reset ip => dom (requests this) ∖ {[ip]}
    | GetStats _ _ => dom (requests this)
    end
  ∧ size (requests (run (fresh m w) (distinct_keys_trace gap n))) = n.
Proof. split; [apply dom_step | apply size_distinct_keys_trace]. Qed.

(** C4 as stated fails: an entry whose only timestamp expired long ago is
    still in the store after another key is served, and no number bounds
    the entries the store of the server's limiter can come to hold. *)
Lemma entries_unbounded :
  requests (run (fresh 30 60000) [Check "a" 0; Check "b" 1000000000]) !! "a"
  = Some [0]
  ∧ ¬ ∃ B : nat, ∀ cs : list call,
        (size (requests (run (fresh 30 60000) cs)) ≤ B)%nat.
Proof.
  split; [vm_compute; reflexivity|].
  intros [B HB].
  specialize (HB (distinct_keys_trace 120000 (S B))).
  rewrite size_distinct_keys_trace in HB. lia.
Qed.

(** ** Further properties of the limiter *)

(** *** Keys are independent *)

Lemma agree_stored (k : string) (s1 s2 : RateLimiter) :
  agree k s1 s2 → stored k s1 = stored k s2.
Proof. intros (E & _ & _). unfold stored. by rewrite E. Qed.

Lemma agree_trans (k : string) (s1 s2 s3 : RateLimiter) :
  agree k s1 s2 → agree k s2 s3 → agree k s1 s3.
Proof. intros (? & ? & ?) (? & ? & ?). repeat split; congruence. Qed.

Lemma agree_isAllowed (k : string) (now : Z) (s1 s2 : RateLimiter) :
  agree k s1 s2 → (isAllowed now k s1).1 = (isAllowed now k s2).1.
Proof.
  intros Ha. pose proof (agree_stored _ _ _ Ha) as Hs.
  destruct Ha as (_ & Hm & Hw). rewrite !isAllowed_eq. cbn.
  unfold live. by rewrite Hs, Hm, Hw.
Qed.

Lemma agree_getStats (k : string) (now : Z) (s1 s2 : RateLimiter) :
  agree k s1 s2 → (getStats now k s1).1 = (getStats now k s2).1.
Proof.
  intros (E & Hm & Hw). unfold getStats, Map_has, Map_get.
  rewrite E, Hm, Hw. by destruct (negb _).
Qed.

Lemma agree_step (k : string) (c : call) (s1 s2 : RateLimiter) :
  agree k s1 s2 → agree k (step s1 c) (step s2 c).
Proof.
  intros Ha. pose proof (agree_stored _ _ _ Ha) as Hs.
  destruct Ha as (E & Hm & Hw).
  destruct c as [ip now|ip|ip now]; cbn [step].
  - split; [|by rewrite !(proj1 (isAllowed_config _ _ _)),
                       !(proj2 (isAllowed_config _ _ _))].
    rewrite !isAllowed_requests. destruct (decide (ip = k)) as [->|Hne].
    + rewrite !lookup_insert_eq. unfold live. by rewrite Hs, Hm, Hw.
    + by rewrite !lookup_insert_ne.
  - split; [|done]. unfold reset, Map_delete. cbn.
    rewrite !lookup_delete. by case_decide.
  - by rewrite !getStats_state.
Qed.

Lemma agree_run (k : string) (cs : list call) (s1 s2 : RateLimiter) :
  agree k s1 s2 → agree k (run s1 cs) (run s2 cs).
Proof.
  revert s1 s2. induction cs as [|c cs IH]; intros s1 s2 Ha; [done|].
  rewrite !run_cons. by apply IH, agree_step.
Qed.

Lemma agree_step_ne (k : string) (c : call) (this : RateLimiter) :
  call_key c ≠ k → agree k (step this c) this.
Proof.
  intros Hne. destruct c as [ip now|ip|ip now]; cbn in Hne; cbn [step].
  - split; [|done]. by rewrite isAllowed_requests, lookup_insert_ne.
  - split; [|done]. unfold reset, Map_delete. cbn.
    by rewrite lookup_delete_ne.
  - by rewrite getStats_state.
Qed.

Lemma agree_run_filter (k : string) (cs : list call) (this : RateLimiter) :
  agree k (run this cs) (run this (filter (λ c, call_key c = k) cs)).
Proof.
  revert this. induction cs as [|c cs IH]; intros this; [done|].
  rewrite filter_cons, run_cons. case_decide as Hk.
  - rewrite run_cons. apply IH.
  - eapply agree_trans; [apply IH|]. by apply agree_run, agree_step_ne.
Qed.

(** X1 (independence of keys).  What the limiter holds for a key [k] after
    a sequence of calls, and what [isAllowed] and [getStats] then answer for
    [k], are what they would be had the calls for all other keys never been
    made. *)
Theorem key_independence (this : RateLimiter) (cs : list call) (k : string)
    (now : Z) :
  let own := filter (λ c, call_key c = k) cs in
  requests (run this cs) !! k = requests (run this own) !! k
  ∧ (isAllowed now k (run this cs)).1 = (isAllowed now k (run this own)).1
  ∧ (getStats now k (run this cs)).1 = (getStats now k (run this own)).1.
Proof.
  cbn zeta. pose proof (agree_run_filter k cs this) as Ha.
  split; [apply Ha|]. split; [by apply agree_isAllowed | by apply agree_getStats].
Qed.

(** *** Calls within one window *)

Lemma live_all (now : Z) (this : RateLimiter) (l : list Z) :
  (∀ x, x ∈ l → now - windowMs this < x) → live now this l = l.
Proof.
  unfold live. induction l as [|x l IH]; intros Hall; [done|].
  rewrite filter_cons_True by (apply Hall; left).
  f_equal. apply IH. intros y Hy. apply Hall. by right.
Qed.

Lemma live_none (now : Z) (this : RateLimiter) (l : list Z) :
  (∀ x, x ∈ l → x ≤ now - windowMs this) → live now this l = [].
Proof.
  unfold live. induction l as [|x l IH]; intros Hall; [done|].
  rewrite filter_cons_False by (specialize (Hall x ltac:(left)); lia).
  apply IH. intros y Hy. apply Hall. by right.
Qed.

Lemma checks_cons_state (ip : string) (now : Z) (nows : list Z)
    (this : RateLimiter) :
  (checks ip (now :: nows) this).2 = (checks ip nows (isAllowed now ip this).2).2.
Proof.
  cbn [checks]. destruct (isAllowed now ip this) as [d this'].
  cbn [fst snd]. by destruct (checks ip nows this').
Qed.

(** When the history of the key and the instants of the calls all lie in a
    span shorter than the window, nothing expires between the calls: the
    calls are admitted until the quota is used up and rejected from then
    on, and the admitted instants are appended to the history. *)
Lemma checks_span (ip : string) (nows : list Z) (this : RateLimiter)
    (a : Z) :
  (∀ x, x ∈ stored ip this ++ nows → a ≤ x < a + windowMs this) →
  (checks ip nows this).1
  = replicate
      (Z.to_nat (maxRequests this - Z.of_nat (length (stored ip this)))
       `min` length nows) true
    ++ replicate
         (length nows
          - Z.to_nat (maxRequests this - Z.of_nat (length (stored ip this))))
         false
  ∧ stored ip (checks ip nows this).2
    = stored ip this
      ++ take (Z.to_nat (maxRequests this
                         - Z.of_nat (length (stored ip this)))) nows.
Proof.
  revert this. induction nows as [|now nows IH]; intros this Hspan.
  { cbn. rewrite Nat.min_0_r, take_nil. cbn. by rewrite app_nil_r. }
  rewrite checks_cons, checks_cons_state.
  assert (live now this (stored ip this) = stored ip this) as Hlive.
  { apply live_all. intros x Hx.
    pose proof (Hspan x ltac:(apply elem_of_app; by left)).
    pose proof (Hspan now ltac:(apply elem_of_app; right; left)). lia. }
  pose proof (stored_isAllowed now ip this) as Hst.
  rewrite isAllowed_allowed, Hlive in Hst. rewrite isAllowed_allowed, Hlive.
  specialize (IH (isAllowed now ip this).2).
  rewrite (proj1 (isAllowed_config now ip this)),
          (proj2 (isAllowed_config now ip this)), Hst in IH.
  case_bool_decide as Hlt.
  - destruct IH as [IH1 IH2].
    { intros x Hx. apply Hspan. rewrite <- app_assoc in Hx. exact Hx. }
    rewrite IH1, IH2, length_app. cbn [length]. clear IH1 IH2.
    replace (Z.to_nat (maxRequests this
                       - Z.of_nat (length (stored ip this))))
      with (S (Z.to_nat (maxRequests this
                         - Z.of_nat (length (stored ip this) + 1))))
      by lia.
    by rewrite <- app_assoc.
  - destruct IH as [IH1 IH2].
    { intros x Hx. apply Hspan. apply elem_of_app in Hx as [Hx|Hx];
        apply elem_of_app; [by left | right; by right]. }
    rewrite IH1, IH2. clear IH1 IH2.
    replace (Z.to_nat (maxRequests this
                       - Z.of_nat (length (stored ip this)))) with 0%nat
      by lia.
    cbn. by rewrite Nat.sub_0_r.
Qed.

(** X2 (calls within one window).  If the history of a key and the
    instants of a run of [isAllowed] calls for it all lie in a span shorter
    than [windowMs], then exactly the first [free] calls are admitted and
    all later ones rejected, where [free] is the part of the quota the
    history leaves unused; the order of the instants does not matter. *)
Theorem burst_admission (this : RateLimiter) (ip : string) (nows : list Z)
    (a : Z) :
  (∀ x, x ∈ stored ip this ++ nows → a ≤ x < a + windowMs this) →
  let free :=
    Z.to_nat (maxRequests this - Z.of_nat (length (stored ip this))) in
  (checks ip nows this).1
  = replicate (free `min` length nows) true
    ++ replicate (length nows - free) false.
Proof. intros Hspan. by destruct (checks_span ip nows this a Hspan). Qed.

Lemma burst_admission_witness :
  (checks "K" [105; 101; 109; 100] (run (fresh 3 10) [Check "K" 100])).1
  = [true; true; false; false].
Proof.
  apply (burst_admission (run (fresh 3 10) [Check "K" 100]) "K"
           [105; 101; 109; 100] 100).
  intros x Hx. vm_compute in Hx.
  repeat (apply elem_of_cons in Hx as [->|Hx]; [cbn; lia|]).
  by apply elem_of_nil in Hx.
Defined.

(** *** What a decision tells the caller *)

Lemma Math_ceil_div_pos (x : Z) : 0 < x → 1 ≤ Math_ceil_div x 1000.
Proof. intros Hx. pose proof (Math_ceil_div_spec x 1000). lia. Qed.

Lemma Math_ceil_div_mono (x y : Z) :
  x ≤ y → Math_ceil_div x 1000 ≤ Math_ceil_div y 1000.
Proof.
  intros Hxy. pose proof (Math_ceil_div_spec x 1000).
  pose proof (Math_ceil_div_spec y 1000). lia.
Qed.

(** X3 (a rejection asks to wait).  With a quota of at least 1, a rejected
    call reports a [resetTime] later than [now] and a [retryAfter] of at
    least one second, whatever the window and the stored history. *)
Theorem rejection_asks_to_wait (this : RateLimiter) (ip : string) (now : Z) :
  1 ≤ maxRequests this →
  Decision.allowed (isAllowed now ip this).1 = false →
  now < Decision.resetTime (isAllowed now ip this).1
  ∧ 1 ≤ Decision.retryAfter (isAllowed now ip this).1.
Proof.
  intros Hm. rewrite isAllowed_eq. cbn.
  case_bool_decide as Hlt; [done|]. intros _.
  destruct (live now this (stored ip this)) as [|t0 kept] eqn:E;
    [cbn in Hlt; lia|].
  assert (t0 ∈ live now this (stored ip this)) as [_ Ht0]%elem_of_live
    by (rewrite E; left).
  split; [lia|]. apply Math_ceil_div_pos. lia.
Qed.

Lemma rejection_asks_to_wait_witness :
  2 < Decision.resetTime (isAllowed 2 "K" exhausted).1
  ∧ 1 ≤ Decision.retryAfter (isAllowed 2 "K" exhausted).1.
Proof.
  apply (rejection_asks_to_wait exhausted "K" 2).
  - vm_compute. discriminate.
  - vm_compute. reflexivity.
Defined.

(** X6 (the quota recovers).  Once every stored timestamp of a key is a
    full window old, a call for that key is admitted like a first call: the
    history becomes [[now]] and the decision is [remaining = maxRequests - 1],
    [resetTime = now + windowMs], [retryAfter = 0]. *)
Theorem quota_recovers (this : RateLimiter) (ip : string) (now : Z) :
  1 ≤ maxRequests this →
  (∀ x, x ∈ stored ip this → x ≤ now - windowMs this) →
  (isAllowed now ip this).1
  = Decision.mk true (maxRequests this - 1) (now + windowMs this) 0
  ∧ stored ip (isAllowed now ip this).2 = [now].
Proof.
  intros Hm Hold. rewrite stored_isAllowed, isAllowed_eq. cbn.
  rewrite (live_none _ _ _ Hold). cbn.
  rewrite bool_decide_eq_true_2 by lia. cbn.
  split; [|done]. f_equal. lia.
Qed.

Lemma quota_recovers_witness :
  (isAllowed 10001 "K" exhausted).1 = Decision.mk true (2 - 1) (10001 + 10000) 0
  ∧ stored "K" (isAllowed 10001 "K" exhausted).2 = [10001].
Proof.
  apply (quota_recovers exhausted "K" 10001).
  - vm_compute. discriminate.
  - intros x Hx. vm_compute in Hx.
    repeat (apply elem_of_cons in Hx as [->|Hx]; [cbn; lia|]).
    by apply elem_of_nil in Hx.
Defined.

Lemma getStats_present (now : Z) (ip : string) (this : RateLimiter)
    (l : list Z) :
  requests this !! ip = Some l →
  (getStats now ip this).1
  = Stats.mk (Z.of_nat (length (live now this l)))
      (Z.max 0 (maxRequests this - Z.of_nat (length (live now this l))))
      (match live now this l with
       | t0 :: _ => t0 + windowMs this
       | [] => now + windowMs this
       end).
Proof.
  intros E. unfold getStats, live. rewrite (Map_has_true _ _ _ E).
  unfold Map_get. by rewrite E.
Qed.

(** X5 (stats after a call).  With a positive window, [getStats] asked at
    the instant of an [isAllowed] call, right after it, reports the
    [remaining] and [resetTime] of that call's decision, and a
    [requestCount] one higher than [getStats] reported before the call when
    the call was admitted, the same when it was rejected.  The call is
    admitted exactly when the [requestCount] before it is below
    [maxRequests]. *)
Theorem stats_after_check (this : RateLimiter) (ip : string) (now : Z) :
  0 < windowMs this →
  let d := (isAllowed now ip this).1 in
  (getStats now ip (isAllowed now ip this).2).1
  = Stats.mk (Stats.requestCount (getStats now ip this).1
              + (if Decision.allowed d then 1 else 0))
      (Decision.remaining d) (Decision.resetTime d)
  ∧ Decision.allowed d
    = bool_decide (Stats.requestCount (getStats now ip this).1
                   < maxRequests this).
Proof.
  intros Hw. cbn zeta. rewrite getStats_requestCount.
  split; [|apply isAllowed_allowed].
  assert (requests (isAllowed now ip this).2 !! ip
          = Some (stored ip (isAllowed now ip this).2)) as E.
  { unfold stored. by rewrite isAllowed_requests, lookup_insert_eq. }
  assert (live now this (stored ip (isAllowed now ip this).2)
          = stored ip (isAllowed now ip this).2) as Hlive.
  { apply live_all. rewrite stored_isAllowed. intros x Hx.
    destruct (Decision.allowed _).
    - apply elem_of_app in Hx as [[_ ?]%elem_of_live | ->%list_elem_of_singleton];
        [done | lia].
    - by apply elem_of_live in Hx as [_ ?]. }
  rewrite (getStats_present _ _ _ _ E).
  change (live now (isAllowed now ip this).2 ?l) with (live now this l).
  rewrite Hlive, (proj1 (isAllowed_config now ip this)),
          (proj2 (isAllowed_config now ip this)).
  rewrite stored_isAllowed, isAllowed_eq. cbn.
  case_bool_decide; cbn; [rewrite length_app; cbn|]; f_equal; lia.
Qed.

Lemma stats_after_check_witness :
  (getStats 5 "K" (isAllowed 5 "K" (fresh 2 1000)).2).1 = Stats.mk (0 + 1) 1 1005
  ∧ Decision.allowed (isAllowed 5 "K" (fresh 2 1000)).1 = true.
Proof.
  apply (stats_after_check (fresh 2 1000) "K" 5). cbn. lia.
Defined.

(** X7 (remaining counts down).  Of two successive admitted calls for a
    key with no stored timestamp expiring in between, the second reports a
    [remaining] one less than the first and the same [resetTime]. *)
Theorem remaining_counts_down (this : RateLimiter) (ip : string)
    (now1 now2 : Z) :
  let r1 := isAllowed now1 ip this in
  let r2 := isAllowed now2 ip r1.2 in
  Decision.allowed r1.1 = true →
  Decision.allowed r2.1 = true →
  (∀ x, x ∈ stored ip r1.2 → now2 - windowMs this < x) →
  Decision.remaining r2.1 = Decision.remaining r1.1 - 1
  ∧ Decision.resetTime r2.1 = Decision.resetTime r1.1.
Proof.
  cbn zeta. intros H1 H2 Hkeep.
  pose proof (stored_isAllowed now1 ip this) as Hst. rewrite H1 in Hst.
  assert (live now2 (isAllowed now1 ip this).2
            (stored ip (isAllowed now1 ip this).2)
          = stored ip (isAllowed now1 ip this).2) as Hlive
    by (by apply live_all).
  rewrite isAllowed_allowed in H1, H2. rewrite Hlive in H2.
  apply bool_decide_eq_true_1 in H1, H2.
  rewrite (isAllowed_eq now2). cbn zeta. rewrite Hlive.
  rewrite (proj1 (isAllowed_config now1 ip this)),
          (proj2 (isAllowed_config now1 ip this)).
  rewrite bool_decide_eq_true_2 by done.
  rewrite Hst in *. rewrite (isAllowed_eq now1). cbn.
  rewrite bool_decide_eq_true_2 by done. rewrite length_app in *. cbn in *.
  split; [lia|]. by destruct (live now1 this (stored ip this)).
Qed.

Lemma remaining_counts_down_witness :
  Decision.remaining (isAllowed 7 "K" (isAllowed 5 "K" (fresh 3 1000)).2).1
  = Decision.remaining (isAllowed 5 "K" (fresh 3 1000)).1 - 1
  ∧ Decision.resetTime (isAllowed 7 "K" (isAllowed 5 "K" (fresh 3 1000)).2).1
    = Decision.resetTime (isAllowed 5 "K" (fresh 3 1000)).1.
Proof.
  apply (remaining_counts_down (fresh 3 1000) "K" 5 7).
  - vm_compute. reflexivity.
  - vm_compute. reflexivity.
  - intros x Hx. vm_compute in Hx.
    repeat (apply elem_of_cons in Hx as [->|Hx]; [cbn; lia|]).
    by apply elem_of_nil in Hx.
Defined.

(** *** A clock that never goes back *)

Lemma ordered_before_run_rest (R : relation Z) (k : string) (cs : list call)
    (rest : list Z) (this : RateLimiter) :
  StronglySorted R (check_instants k cs ++ rest) →
  ordered_before R k (check_instants k cs ++ rest) this →
  ordered_before R k rest (run this cs).
Proof.
  revert this. induction cs as [|c cs IH]; intros this Hcs Hord; [done|].
  rewrite run_cons.
  destruct c as [ip now|ip|ip now]; cbn [check_instants step] in *.
  - destruct (decide (ip = k)) as [->|Hne].
    + cbn [app] in *. apply StronglySorted_cons in Hcs as [Hnow Hcs].
      apply IH; [done|]. by apply ordered_before_isAllowed.
    + apply IH; [done|]. unfold ordered_before.
      by rewrite stored_isAllowed_ne.
  - apply IH; [done|]. by apply ordered_before_reset.
  - rewrite getStats_state. by apply IH.
Qed.

(** X4 (reset time within one window).  On a limiter with a positive
    window, as long as the instants of the [isAllowed] calls for a key never
    decrease, every decision for that key has its [resetTime] later than
    [now] and at most one window after it, and a [retryAfter] between 0 and
    the window length in seconds, rounded up. *)
Theorem resetTime_within_window (m w : Z) (cs : list call) (k : string)
    (now : Z) :
  0 < w →
  StronglySorted Z.le (check_instants k cs ++ [now]) →
  let d := (isAllowed now k (run (fresh m w) cs)).1 in
  now < Decision.resetTime d ≤ now + w
  ∧ 0 ≤ Decision.retryAfter d ≤ Math_ceil_div w 1000.
Proof.
  intros Hw Hcs. cbn zeta.
  destruct (ordered_before_run_rest Z.le k cs [now] (fresh m w) Hcs
              (ordered_before_fresh Z.le k _ m w)) as [_ Hle].
  set (this := run (fresh m w) cs) in *.
  assert (windowMs this = w) as Hwin by apply (run_config (fresh m w) cs).
  assert (∀ x, x ∈ live now this (stored k this) → now - w < x ≤ now) as Hin.
  { intros x [Hx Hlt]%elem_of_live. rewrite Forall_forall in Hle.
    specialize (Hle x Hx). apply Forall_cons in Hle as [? _]. lia. }
  rewrite isAllowed_eq. cbn. rewrite Hwin.
  assert (now < match (if bool_decide
                            (Z.of_nat (length (live now this (stored k this)))
                             < maxRequests this)
                       then live now this (stored k this) ++ [now]
                       else live now this (stored k this))
                with
                | [] => now + w
                | t0 :: _ => t0 + w
                end ≤ now + w) as Hrt.
  { destruct (live now this (stored k this)) as [|t0 kept] eqn:E.
    - case_bool_decide; cbn; lia.
    - specialize (Hin t0 ltac:(left)). case_bool_decide; cbn; lia. }
  split; [done|]. case_bool_decide.
  - pose proof (Math_ceil_div_pos w Hw). lia.
  - split.
    + match goal with
      | |- 0 ≤ Math_ceil_div ?x 1000 =>
          pose proof (Math_ceil_div_pos x ltac:(lia))
      end. lia.
    + apply Math_ceil_div_mono. lia.
Qed.

Lemma resetTime_within_window_witness :
  2500 < Decision.resetTime
           (isAllowed 2500 "K"
              (run (fresh 2 5000) [Check "K" 0; Check "K" 1000])).1
       ≤ 2500 + 5000
  ∧ 0 ≤ Decision.retryAfter
          (isAllowed 2500 "K"
             (run (fresh 2 5000) [Check "K" 0; Check "K" 1000])).1
      ≤ Math_ceil_div 5000 1000.
Proof.
  apply (resetTime_within_window 2 5000 [Check "K" 0; Check "K" 1000] "K" 2500).
  - lia.
  - cbn. repeat constructor; lia.
Defined.

(** *** Degenerate inputs *)

(** X8 (reset of an unknown key).  [reset] for a key that has no entry
    leaves the limiter exactly as it was. *)
Theorem reset_unknown_key (this : RateLimiter) (ip : string) :
  requests this !! ip = None → reset ip this = this.
Proof.
  intros E. destruct this as [m w reqs].
  unfold reset, set_requests, Map_delete. cbn in *. by rewrite delete_id.
Qed.

Lemma reset_unknown_key_witness : reset "J" exhausted = exhausted.
Proof. apply (reset_unknown_key exhausted "J"). vm_compute. reflexivity. Defined.

(** X9 (a quota of zero or less).  A limiter whose [maxRequests] is zero or
    negative, which the constructor accepts, rejects every call with
    [remaining = 0] and never stores the instant of a call. *)
Theorem nonpositive_quota_blocks (this : RateLimiter) (ip : string)
    (now : Z) :
  maxRequests this ≤ 0 →
  Decision.allowed (isAllowed now ip this).1 = false
  ∧ Decision.remaining (isAllowed now ip this).1 = 0
  ∧ stored ip (isAllowed now ip this).2 = live now this (stored ip this).
Proof.
  intros Hm. rewrite stored_isAllowed, isAllowed_eq. cbn.
  rewrite bool_decide_eq_false_2 by lia. cbn. repeat split. lia.
Qed.

Lemma nonpositive_quota_blocks_witness :
  Decision.allowed (isAllowed 7 "K" (fresh 0 60000)).1 = false
  ∧ Decision.remaining (isAllowed 7 "K" (fresh 0 60000)).1 = 0
  ∧ stored "K" (isAllowed 7 "K" (fresh 0 60000)).2
    = live 7 (fresh 0 60000) (stored "K" (fresh 0 60000)).
Proof. apply (nonpositive_quota_blocks (fresh 0 60000) "K" 7). cbn. lia. Defined.

(** ** The middleware *)

Lemma JS_or_cases (a b : option string) :
  (JS_or a b = a ∧ ∃ s, a = Some s ∧ s ≠ "") ∨ JS_or a b = b.
Proof.
  unfold JS_or. destruct a as [s|]; [|by right].
  case_decide; [by right | left; eauto].
Qed.

(** X10 (the key of a request).  The key the middleware hands to the
    limiter is never the empty string and never ['::1']; it is
    ['127.0.0.1'] or one of the addresses of the request. *)
Theorem clientIp_key (req : request) :
  clientIp req ≠ ""
  ∧ clientIp req ≠ "::1"
  ∧ (clientIp req = "127.0.0.1"
     ∨ Some (clientIp req)
       ∈ [req_ip req; req_connection_remoteAddress req;
          req_socket_remoteAddress req;
          req_connection_socket_remoteAddress req]).
Proof.
  unfold clientIp.
  destruct (JS_or_cases
              (JS_or (JS_or (JS_or (req_ip req)
                               (req_connection_remoteAddress req))
                        (req_socket_remoteAddress req))
                 (req_connection_socket_remoteAddress req))
              (Some "::1")) as [[E (s & Hs & Hne)]| ->]; cbn.
  2: { rewrite decide_True by (by left). repeat split; try done. by left. }
  rewrite E, Hs. cbn. case_decide as Hlo.
  { repeat split; try done. by left. }
  split; [done|]. split; [intros ->; apply Hlo; by left|]. right.
  rewrite <- Hs. clear.
  rewrite !elem_of_cons.
  destruct (JS_or_cases
              (JS_or (JS_or (req_ip req) (req_connection_remoteAddress req))
                 (req_socket_remoteAddress req))
              (req_connection_socket_remoteAddress req)) as [[-> _]| ->];
    [|tauto].
  destruct (JS_or_cases
              (JS_or (req_ip req) (req_connection_remoteAddress req))
              (req_socket_remoteAddress req)) as [[-> _]| ->];
    [|tauto].
  destruct (JS_or_cases (req_ip req) (req_connection_remoteAddress req))
    as [[-> _]| ->]; tauto.
Qed.






(** ** The short-id generator *)

Lemma String_get_lookup (s : string) (n : nat) :
  String.get n s = String.list_ascii_of_string s !! n.
Proof.
  revert n. induction s as [|c s IH]; intros [|n]; cbn; first [done | apply IH].
Qed.

Lemma String_length_list (s : string) :
  String.length s = length (String.list_ascii_of_string s).
Proof. induction s as [|c s IH]; cbn; by f_equal. Qed.

Lemma base62Chars_length :
  length (String.list_ascii_of_string base62Chars) = 62%nat.
Proof. reflexivity. Qed.


Lemma base62Chars_get (d : N) :
  (d < 62)%N →
  String.get (N.to_nat d) base62Chars = Some (digit_char d)
  ∧ base62 (digit_char d).
Proof.
  intros Hd. rewrite String_get_lookup. unfold digit_char, base62.
  destruct (lookup_lt_is_Some_2 (String.list_ascii_of_string base62Chars)
              (N.to_nat d)) as [c Hc].
  { rewrite base62Chars_length. lia. }
  rewrite Hc. cbn. split; [done|]. by eapply list_elem_of_lookup_2.
Qed.


Lemma digits62_bound (i : nat) (num : N) :
  Forall (λ d, (d < 62)%N) (digits62 i num).
Proof.
  revert num. induction i as [|i IH]; intros num; constructor; [|apply IH].
  by apply N.mod_lt.
Qed.

Lemma digits62_length (i : nat) (num : N) : length (digits62 i num) = i.
Proof. revert num. induction i as [|i IH]; intros num; cbn; by f_equal. Qed.

(** The loop prints the digits with the lowest one last. *)
Lemma generate_loop_digits (i : nat) (num : N) (result : string) :
  String.list_ascii_of_string (generate_loop i num result)
  = reverse (digit_char <$> digits62 i num)
    ++ String.list_ascii_of_string result.
Proof.
  revert num result. induction i as [|i IH]; intros num result; [done|].
  cbn [generate_loop digits62 fmap list_fmap].
  destruct (base62Chars_get (num mod 62)%N) as [-> _]; [by apply N.mod_lt|].
  rewrite IH, reverse_cons. cbn. by rewrite <- app_assoc.
Qed.


Lemma generate_loop_shape (i : nat) (num : N) :
  String.length (generate_loop i num "") = i
  ∧ Forall base62 (String.list_ascii_of_string (generate_loop i num "")).
Proof.
  rewrite String_length_list.
  rewrite generate_loop_digits. cbn [String.list_ascii_of_string].
  rewrite app_nil_r. split.
  - by rewrite length_reverse, length_fmap, digits62_length.
  - apply Forall_reverse, Forall_fmap.
    eapply Forall_impl; [apply digits62_bound|].
    intros d Hd. by apply base62Chars_get.
Qed.

(** X12 (shape of a generated id).  Whatever the digest, [generate] returns
    exactly 7 characters, each one a digit or an unaccented letter of
    [base62Chars]. *)
Theorem generate_shape (sha256_prefix64 : string → N) (longUrl : string)
    (attempt : nat) :
  String.length (generate sha256_prefix64 longUrl attempt) = 7%nat
  ∧ Forall base62
      (String.list_ascii_of_string
         (generate sha256_prefix64 longUrl attempt)).
Proof. unfold generate. apply generate_loop_shape. Qed.


(** The digit of the lowest weight is the last character. *)
Example generate_loop_62 :
  generate_loop 7 61 "" = "000000Z" ∧ generate_loop 7 62 "" = "0000010"
  ∧ generate_loop 7 (62 ^ 7 + 10) "" = "000000a".
Proof. vm_compute. done. Qed.

(** The loop of [generateUnique] stops at the first attempt at or after
    [attempt] whose id is free, or else at attempt 1000. *)
Lemma generateUnique_loop_spec (sha256_prefix64 : string → N)
    (storage_exists : string → bool) (longUrl : string)
    (fuel attempt : nat) :
  (attempt ≤ 1000 < attempt + fuel)%nat →
  ∃ last : nat,
    generateUnique_loop sha256_prefix64 storage_exists longUrl fuel attempt
      (generate sha256_prefix64 longUrl attempt)
    = (last, generate sha256_prefix64 longUrl last)
    ∧ (attempt ≤ last ≤ 1000)%nat
    ∧ (∀ a, (attempt ≤ a < last)%nat →
            storage_exists (generate sha256_prefix64 longUrl a) = true)
    ∧ ((last < 1000)%nat →
       storage_exists (generate sha256_prefix64 longUrl last) = false).
Proof.
  revert attempt. induction fuel as [|fuel IH]; intros attempt Hfuel; [lia|].
  cbn [generateUnique_loop].
  destruct (storage_exists (generate sha256_prefix64 longUrl attempt))
    eqn:Hex; cbn [andb].
  - case_bool_decide as Hlt.
    + destruct (IH (S attempt) ltac:(lia)) as (last & -> & Hlast & Hall & Hfree).
      exists last. split; [done|]. split; [lia|]. split; [|done].
      intros a Ha. destruct (decide (a = attempt)) as [->|]; [done|].
      apply Hall. lia.
    + exists attempt. split; [done|]. split; [lia|]. split; intros; lia.
  - exists attempt. split; [done|]. split; [lia|]. split; [intros; lia|done].
Qed.

(** X14 (what [generateUnique] returns).  An id returned by
    [generateUnique] is not in the storage, and it is the id of the first
    attempt, among attempts 0 to 999, whose id is not in the storage. *)
Theorem generateUnique_returns_free (sha256_prefix64 : string → N)
    (storage_exists : string → bool) (longUrl shortId : string) :
  generateUnique sha256_prefix64 storage_exists longUrl = Returned shortId →
  storage_exists shortId = false
  ∧ ∃ attempt : nat,
      (attempt < 1000)%nat
      ∧ shortId = generate sha256_prefix64 longUrl attempt
      ∧ ∀ a, (a < attempt)%nat →
             storage_exists (generate sha256_prefix64 longUrl a) = true.
Proof.
  unfold generateUnique.
  destruct (generateUnique_loop_spec sha256_prefix64 storage_exists longUrl
              1001 0 ltac:(lia)) as (last & -> & Hlast & Hall & Hfree).
  case_bool_decide as Hge; [done|]. intros [= <-].
  split; [apply Hfree; lia|]. exists last. split; [lia|]. split; [done|].
  intros a Ha. apply Hall. lia.
Qed.

Lemma generateUnique_returns_free_witness :
  taken_once "000000b" = false
  ∧ ∃ attempt : nat,
      (attempt < 1000)%nat
      ∧ "000000b" = generate digest_of_length "http://a" attempt
      ∧ ∀ a, (a < attempt)%nat →
             taken_once (generate digest_of_length "http://a" a) = true.
Proof.
  apply (generateUnique_returns_free digest_of_length taken_once "http://a").
  vm_compute. reflexivity.
Defined.


(** With every id taken the loop runs its thousand rounds and throws. *)
Example generateUnique_all_taken :
  generateUnique digest_of_length (λ _, true) "http://a"
  = Thrown "Failed to generate unique ID after 1000 attempts".
Proof. vm_compute. reflexivity. Qed.

(** ** The routes *)


Lemma alias_char_not_full_stop (c : Ascii.ascii) :
  alias_char c → c ≠ full_stop.
Proof.
  assert (Forall (λ c, c ≠ full_stop)
            (String.list_ascii_of_string alias_chars)) as Hall.
  { apply (bool_decide_unpack
             (Forall (λ c, c ≠ full_stop)
                (String.list_ascii_of_string alias_chars))).
    vm_compute. exact I. }
  rewrite Forall_forall in Hall. apply Hall.
Qed.




(** X17 (aliases that cannot be followed).  An alias that begins with
    [api] and passes the checks of [POST /api/shorten] is created with
    status 201, yet [GET /:shortId] answers 404 for it whatever the storage
    holds, without counting a click. *)
Theorem api_alias_unreachable (sha256_prefix64 : string → N)
    (isValidUrl : string → bool) (storage_exists : string → bool)
    (storage_save : string → string → option string → save_result)
    (storage_getLongUrl : string → option string)
    (protocol host url alias : string) (urlObj : UrlObj.t) :
  String.prefix "api" alias = true →
  (3 ≤ String.length alias ≤ 20)%nat →
  Forall alias_char (String.list_ascii_of_string alias) →
  url ≠ "" → isValidUrl url = true →
  storage_exists alias = false →
  storage_save alias url (Some alias) = Saved urlObj →
  post_api_shorten sha256_prefix64 isValidUrl storage_exists storage_save
    protocol host (Some url) (Some alias)
  = (201, Success (protocol +:+ "://" +:+ host +:+ "/" +:+ alias) urlObj)
  ∧ get_shortId storage_getLongUrl alias = (NotFound "Resource not found", []).
Proof.
  intros Hapi Hlen Hchars Hurl Hvalid Hfree Hsave. split.
  - assert (alias ≠ "") as Hne by (intros ->; cbn in Hlen; lia).
    unfold post_api_shorten. cbn [truthy default from_option id].
    rewrite !(bool_decide_eq_false_2 (_ = "")) by done. cbn [negb].
    rewrite Hvalid. cbn [negb andb].
    rewrite !bool_decide_eq_false_2 by lia. cbn [orb].
    unfold alias_pattern_test. rewrite bool_decide_eq_true_2 by done.
    cbn [negb]. by rewrite Hfree, Hsave.
  - unfold get_shortId. by rewrite Hapi.
Qed.

Lemma api_alias_unreachable_witness :
  post_api_shorten digest_of_length (λ _, true) taken_once save_any
    "http" "localhost:3000" (Some "http://a") (Some "api-docs")
  = (201, Success ("http" +:+ "://" +:+ "localhost:3000" +:+ "/" +:+ "api-docs")
            (UrlObj.mk "api-docs" "http://a" "2025-11-18T10:30:00.000Z" 0))
  ∧ get_shortId (λ _, Some "http://a") "api-docs"
    = (NotFound "Resource not found", []).
Proof.
  apply (api_alias_unreachable digest_of_length (λ _, true) taken_once
           save_any (λ _, Some "http://a") "http" "localhost:3000"
           "http://a" "api-docs").
  - reflexivity.
  - cbn. lia.
  - apply (bool_decide_unpack
             (Forall alias_char (String.list_ascii_of_string "api-docs"))).
    vm_compute. exact I.
  - discriminate.
  - reflexivity.
  - vm_compute. reflexivity.
  - reflexivity.
Defined.

(** X18 (ids that can be followed).  For an id made of letters, digits,
    hyphens and underscores that does not begin with [api], as every
    generated id and accepted alias is apart from that prefix,
    [GET /:shortId] never takes the reserved-path branch: it redirects to
    the URL the storage returns and counts one click for that id, or, when
    the storage returns none or an empty one, answers 404 naming the id and
    counts nothing. *)
Theorem redirect_wellformed (storage_getLongUrl : string → option string)
    (shortId : string) :
  Forall alias_char (String.list_ascii_of_string shortId) →
  String.prefix "api" shortId = false →
  get_shortId storage_getLongUrl shortId
  = match storage_getLongUrl shortId with
    | Some longUrl =>
        if decide (longUrl = "")
        then (NotFound ("Short URL " +:+ quoted shortId +:+ " not found"), [])
        else (Redirect longUrl, [shortId])
    | None => (NotFound ("Short URL " +:+ quoted shortId +:+ " not found"), [])
    end.
Proof.
  intros Hchars Hapi. unfold get_shortId. rewrite Hapi. cbn [orb].
  rewrite bool_decide_eq_false_2.
  2: { intros Hdot. rewrite Forall_forall in Hchars.
       by apply (alias_char_not_full_stop _ (Hchars _ Hdot)). }
  destruct (storage_getLongUrl shortId) as [longUrl|]; [|done]. cbn.
  by repeat case_decide; case_bool_decide.
Qed.

Lemma redirect_wellformed_witness :
  get_shortId (λ _, Some "http://a") "000000b"
  = (Redirect "http://a", ["000000b"]).
Proof.
  apply (redirect_wellformed (λ _, Some "http://a") "000000b").
  - apply (bool_decide_unpack
             (Forall alias_char (String.list_ascii_of_string "000000b"))).
    vm_compute. exact I.
  - reflexivity.
Defined.

(** ** Counting under the quota *)

(** X19 (count and remaining add up).  On a limiter constructed with a
    quota of zero or more, after any sequence of calls, [getStats] reports
    for every key and instant a [requestCount] between 0 and [maxRequests]
    and a [remaining] that is exactly [maxRequests - requestCount]. *)
Theorem stats_add_up (m w : Z) (cs : list call) (k : string) (now : Z) :
  0 ≤ m →
  let st := (getStats now k (run (fresh m w) cs)).1 in
  0 ≤ Stats.requestCount st ≤ m
  ∧ Stats.requestCount st + Stats.remaining st = m.
Proof.
  intros Hm. cbn zeta.
  pose proof (within_quota_run (fresh m w) cs Hm (within_quota_fresh m w))
    as Hq.
  unfold within_quota in Hq.
  pose proof (proj1 (run_config (fresh m w) cs)) as Hmax. cbn in Hmax.
  set (this := run (fresh m w) cs) in *.
  destruct (requests this !! k) as [l|] eqn:E.
  - rewrite (getStats_present _ _ _ _ E). cbn.
    pose proof (length_live now this l). specialize (Hq k l E). lia.
  - unfold getStats. rewrite (Map_has_false _ _ E). cbn. lia.
Qed.

Lemma stats_add_up_witness :
  0 ≤ Stats.requestCount
        (getStats 1500 "K"
           (run (fresh 2 1000) [Check "K" 0; Check "K" 600; Check "K" 700])).1
    ≤ 2
  ∧ Stats.requestCount
      (getStats 1500 "K"
         (run (fresh 2 1000) [Check "K" 0; Check "K" 600; Check "K" 700])).1
    + Stats.remaining
        (getStats 1500 "K"
           (run (fresh 2 1000) [Check "K" 0; Check "K" 600; Check "K" 700])).1
    = 2.
Proof.
  apply (stats_add_up 2 1000 [Check "K" 0; Check "K" 600; Check "K" 700]
           "K" 1500).
  lia.
Defined.
